(** * MeanShiftR: kernel primitives and mode clustering

    A shallow embedding of [src/LittleFunctionsCollection.cpp] and
    [src/FindCluster.cpp], in two versions of the arithmetic.

    Exact arithmetic.  The top-level definitions read [double] as the real
    numbers [R] and every operation as the exact one.  They are used for
    what the code computes as a formula (both sides of an equation are the
    same operations, so rounding moves them alike) and for what follows from
    the control flow alone.  Division is Rocq's total division; where a
    statement allows a height or a width of zero, its proof leaves the value
    of a quotient by zero unknown.

    Binary64.  Module [B64] reads [double] as Rocq's primitive [float], the
    IEEE 754 binary64 numbers with their rounding, signed zeros, infinities
    and NaN, and every operation as the correctly rounded one.  It is used
    wherever rounding decides the outcome: decisions on a boundary, exact
    values, strict inequalities.  [std::exp] has no counterpart among the
    primitive operations, so [GaussFunction] has no binary64 version.

    Loop counters ([int i], [int j]) are modelled by [nat]: they start at
    zero, only grow, and stay below [nrows]. *)

From Stdlib Require Import Reals Lra Lia List Bool Arith Sorted ZArith.
From Stdlib Require Floats.
Import ListNotations.

Open Scope R_scope.

(** ** The operations of [<cmath>] and the comparisons the code uses *)

Module Cmath.

(** [pow(x, 2.0)] and [pow(x, 2)]: the exponent is always the literal two
    in this code base, so an exponent of type [nat] is enough. *)
Definition pow (x : R) (n : nat) : R := x ^ n.

Definition fabs (x : R) : R := Rabs x.

(** [std::min(a, b)] is [(b < a) ? b : a]. *)
Definition min (a b : R) : R := if Rlt_dec b a then b else a.

Definition le (a b : R) : bool := if Rle_dec a b then true else false.
Definition ge (a b : R) : bool := if Rge_dec a b then true else false.
Definition lt (a b : R) : bool := if Rlt_dec a b then true else false.

End Cmath.

(** ** [LittleFunctionsCollection.cpp] *)

(** [InCylinder]: the spec's [CylinderMembership]. *)
Definition InCylinder
    (PointX PointY PointZ Radius Height CtrX CtrY CtrZ : R) : bool :=
  if Cmath.le (Cmath.pow (PointX - CtrX) 2 + Cmath.pow (PointY - CtrY) 2)
              (Cmath.pow Radius 2)
     && Cmath.ge PointZ (CtrZ - 0.5 * Height)
     && Cmath.le PointZ (CtrZ + 0.5 * Height)
  then true
  else false.

Definition VerticalDistance (Height CtrZ PointZ : R) : R :=
  let BottomDistance :=
    Cmath.fabs ((CtrZ - Height / 4 - PointZ) / (3 * Height / 8)) in
  let TopDistance :=
    Cmath.fabs ((CtrZ + Height / 2 - PointZ) / (3 * Height / 8)) in
  let MinDistance := Cmath.min BottomDistance TopDistance in
  MinDistance.

(** [EpanechnikovFunction]: the spec's [VerticalKernelWeight]. *)
Definition EpanechnikovFunction (Height CtrZ PointZ : R) : R :=
  if Cmath.ge PointZ (CtrZ - Height / 4) && Cmath.le PointZ (CtrZ + Height / 2)
  then 1 - Cmath.pow (1 - VerticalDistance Height CtrZ PointZ) 2
  else 0.

(** [GaussFunction]: the spec's [HorizontalKernelWeight]. *)
Definition GaussFunction (Width CtrX CtrY PointX PointY : R) : R :=
  let Distance :=
    sqrt (Cmath.pow (PointX - CtrX) 2 + Cmath.pow (PointY - CtrY) 2) in
  let NormDistance := Distance / (Width / 2) in
  let Result := exp (-5 * Cmath.pow NormDistance 2) in
  Result.

(** ** [FindCluster.cpp] *)

(** One row of the [NumericMatrix ctr]: columns 0, 1 and 2. *)
Record Centroid : Type := mkCentroid { cX : R; cY : R; cZ : R }.

(** The n x 3 matrix [ctr] as the sequence of its rows. *)
Definition NumericMatrix : Type := list Centroid.

Definition nrow (ctr : NumericMatrix) : nat := length ctr.

Definition origin : Centroid := mkCentroid 0 0 0.

(** [ctr(i, c)].  The code only reads rows below [nrow] and columns 0..2;
    elsewhere (undefined in the source) the model answers with a zero row
    and with the last column. *)
Definition cell (ctr : NumericMatrix) (i c : nat) : R :=
  let r := nth i ctr origin in
  match c with
  | O => cX r
  | S O => cY r
  | _ => cZ r
  end.

(** The returned [DataFrame]: columns X, Y, Z and ID.  The source stores
    the [int] id in a [NumericVector]; the model keeps the integer. *)
Record DataFrame : Type := mkDataFrame
  { X : list R; Y : list R; Z : list R; ID : list nat }.

(** [delta] of line 26, for the rows [i] and [j]. *)
Definition delta (ctr : NumericMatrix) (i j : nat) : R :=
  sqrt (Cmath.pow (cell ctr i 0 - cell ctr j 0) 2
        + Cmath.pow (cell ctr i 1 - cell ctr j 1) 2
        + Cmath.pow (cell ctr i 2 - cell ctr j 2) 2).

(** The inner loop [for (int j = 0 ; j < i && !found ; j++)], entered with
    the current [j], [id] and [found]; [fuel] bounds the iterations left. *)
Fixpoint scan (ctr : NumericMatrix) (epsilon : R) (i fuel j id : nat)
    (found : bool) : nat * bool :=
  match fuel with
  | O => (id, found)
  | S fuel' =>
      if (j <? i)%nat && negb found then
        if Cmath.lt (delta ctr i j) epsilon
        then scan ctr epsilon i fuel' (S j) j true
        else scan ctr epsilon i fuel' (S j) id found
      else (id, found)
  end.

(** The body of the outer loop: the value stored in [clus[i]]. *)
Definition cluster_id (ctr : NumericMatrix) (epsilon : R) (i : nat) : nat :=
  fst (scan ctr epsilon i i 0 i false).

(** [clus[i] = v]; an index outside the vector is never written. *)
Fixpoint store (clus : list nat) (i v : nat) : list nat :=
  match clus, i with
  | [], _ => []
  | _ :: t, O => v :: t
  | h :: t, S i' => h :: store t i' v
  end.

(** The outer loop [for (int i = 0 ; i < nrows ; i++)], entered with the
    current [i] and the vector [clus]. *)
Fixpoint fill (ctr : NumericMatrix) (epsilon : R) (fuel i : nat)
    (clus : list nat) : list nat :=
  match fuel with
  | O => clus
  | S fuel' =>
      if (i <? nrow ctr)%nat
      then fill ctr epsilon fuel' (S i) (store clus i (cluster_id ctr epsilon i))
      else clus
  end.

Definition FindCluster (ctr : NumericMatrix) (epsilon : R) : DataFrame :=
  let nrows := nrow ctr in
  let clus := repeat O nrows in
  mkDataFrame (map cX ctr) (map cY ctr) (map cZ ctr)
              (fill ctr epsilon nrows 0 clus).

(** ** The words of the specification *)

(** "planarDistance = Euclidean distance between (pointX,pointY) and
    (centerX,centerY)". *)
Definition planar_distance (px py cx cy : R) : R :=
  sqrt ((px - cx) * (px - cx) + (py - cy) * (py - cy)).




(** "the 3D Euclidean distance between centroid i and centroid j". *)
Definition distance3 (a b : Centroid) : R :=
  sqrt ((cX a - cX b) * (cX a - cX b)
        + (cY a - cY b) * (cY a - cY b)
        + (cZ a - cZ b) * (cZ a - cZ b)).

Definition centroid (ctr : NumericMatrix) (i : nat) : Centroid :=
  nth i ctr origin.

(** The leader rule: [r] is "the smallest j < i such that the distance
    between centroid i and centroid j is strictly less than epsilon; if no
    such j exists, i". *)
Definition leader_rule (ctr : NumericMatrix) (epsilon : R) (i r : nat) : Prop :=
  ((r < i)%nat
   /\ distance3 (centroid ctr i) (centroid ctr r) < epsilon
   /\ forall j, (j < r)%nat ->
        ~ distance3 (centroid ctr i) (centroid ctr j) < epsilon)
  \/ (r = i
      /\ forall j, (j < i)%nat ->
           ~ distance3 (centroid ctr i) (centroid ctr j) < epsilon).

(** The rows of a table, and "the coordinates of its own output's leaders":
    row [i] of the new matrix holds the coordinates of the row that the
    table names as the leader of row [i]. *)
Fixpoint rows_of (xs ys zs : list R) : NumericMatrix :=
  match xs, ys, zs with
  | x :: xs', y :: ys', z :: zs' => mkCentroid x y z :: rows_of xs' ys' zs'
  | _, _, _ => []
  end.

Definition leader_coordinates (out : DataFrame) : NumericMatrix :=
  map (fun l => nth l (rows_of (X out) (Y out) (Z out)) origin) (ID out).

(** The other reading of "the coordinates of its own output's leaders":
    the centroids whose index occurs in the ID column, in input order, each
    listed once. *)
Definition is_leader (ids : list nat) (j : nat) : bool :=
  existsb (Nat.eqb j) ids.

Definition leaders (out : DataFrame) : list nat :=
  filter (is_leader (ID out)) (seq 0 (length (ID out))).

Definition leader_rows (out : DataFrame) : NumericMatrix :=
  map (fun l => nth l (rows_of (X out) (Y out) (Z out)) origin) (leaders out).

(** ** Sample inputs *)

(** The centroids A, B, C of the spec's order-sensitivity example, used
    there with epsilon 0.6. *)
Definition chain : NumericMatrix :=
  [mkCentroid 0 0 0; mkCentroid 0.5 0 0; mkCentroid 1 0 0].

(** Two near centroids and a distant one. *)
Definition pair_and_far : NumericMatrix :=
  [mkCentroid 0 0 0; mkCentroid 0.5 0 0; mkCentroid 10 0 0].

(** ** Moving and scaling a matrix of centroids *)



(** * The binary64 embedding *)

Module B64.

Import Floats.
Local Open Scope float_scope.

(** [pow(x, 2.0)] and [pow(x, 2)]: the correctly rounded square, which is
    what a compiler emits for the constant exponent two. *)
Definition pow2 (x : float) : float := x * x.

(** [std::min(a, b)] is [(b < a) ? b : a]. *)
Definition min (a b : float) : float := if b <? a then b else a.

(** [a >= b]; false, like every comparison, when an operand is NaN. *)
Definition ge (a b : float) : bool := b <=? a.

Definition InCylinder
    (PointX PointY PointZ Radius Height CtrX CtrY CtrZ : float) : bool :=
  if (pow2 (PointX - CtrX) + pow2 (PointY - CtrY) <=? pow2 Radius)
     && ge PointZ (CtrZ - 0.5 * Height)
     && (PointZ <=? CtrZ + 0.5 * Height)
  then true
  else false.

Definition VerticalDistance (Height CtrZ PointZ : float) : float :=
  let BottomDistance := abs ((CtrZ - Height / 4 - PointZ) / (3 * Height / 8)) in
  let TopDistance := abs ((CtrZ + Height / 2 - PointZ) / (3 * Height / 8)) in
  let MinDistance := min BottomDistance TopDistance in
  MinDistance.

Definition EpanechnikovFunction (Height CtrZ PointZ : float) : float :=
  if ge PointZ (CtrZ - Height / 4) && (PointZ <=? CtrZ + Height / 2)
  then 1 - pow2 (1 - VerticalDistance Height CtrZ PointZ)
  else 0.

Record Centroid : Type := mkCentroid { cX : float; cY : float; cZ : float }.

Definition NumericMatrix : Type := list Centroid.

Definition nrow (ctr : NumericMatrix) : nat := length ctr.

Definition origin : Centroid := mkCentroid 0 0 0.

Definition cell (ctr : NumericMatrix) (i c : nat) : float :=
  let r := nth i ctr origin in
  match c with
  | O => cX r
  | S O => cY r
  | _ => cZ r
  end.

Record DataFrame : Type := mkDataFrame
  { X : list float; Y : list float; Z : list float; ID : list nat }.

Definition delta (ctr : NumericMatrix) (i j : nat) : float :=
  sqrt (pow2 (cell ctr i 0 - cell ctr j 0)
        + pow2 (cell ctr i 1 - cell ctr j 1)
        + pow2 (cell ctr i 2 - cell ctr j 2)).

Fixpoint scan (ctr : NumericMatrix) (epsilon : float) (i fuel j id : nat)
    (found : bool) : nat * bool :=
  match fuel with
  | O => (id, found)
  | S fuel' =>
      if (j <? i)%nat && negb found then
        if delta ctr i j <? epsilon
        then scan ctr epsilon i fuel' (S j) j true
        else scan ctr epsilon i fuel' (S j) id found
      else (id, found)
  end.

Definition cluster_id (ctr : NumericMatrix) (epsilon : float) (i : nat) : nat :=
  fst (scan ctr epsilon i i 0 i false).

Fixpoint fill (ctr : NumericMatrix) (epsilon : float) (fuel i : nat)
    (clus : list nat) : list nat :=
  match fuel with
  | O => clus
  | S fuel' =>
      if (i <? nrow ctr)%nat
      then fill ctr epsilon fuel' (S i) (store clus i (cluster_id ctr epsilon i))
      else clus
  end.

Definition FindCluster (ctr : NumericMatrix) (epsilon : float) : DataFrame :=
  let nrows := nrow ctr in
  let clus := repeat O nrows in
  mkDataFrame (map cX ctr) (map cY ctr) (map cZ ctr)
              (fill ctr epsilon nrows 0 clus).

Fixpoint rows_of (xs ys zs : list float) : NumericMatrix :=
  match xs, ys, zs with
  | x :: xs', y :: ys', z :: zs' => mkCentroid x y z :: rows_of xs' ys' zs'
  | _, _, _ => []
  end.

(** The leader rule on the distances as the code computes them: [r] is
    the smallest [j < i] whose computed [delta] compares below epsilon, or
    [i] when there is none. *)
Definition first_match (ctr : NumericMatrix) (epsilon : float) (i r : nat)
    : Prop :=
  ((r < i)%nat
   /\ (delta ctr i r <? epsilon) = true
   /\ forall j, (j < r)%nat -> (delta ctr i j <? epsilon) = false)
  \/ (r = i
      /\ forall j, (j < i)%nat -> (delta ctr i j <? epsilon) = false).

(** The real number a finite [double] stands for (zero for the others). *)
Definition exact (x : float) : R :=
  match Prim2SF x with
  | S754_finite s m e =>
      let v := match e with
               | Z0 => IZR (Zpos m)
               | Zpos p => IZR (Zpos m * 2 ^ Zpos p)
               | Zneg p => (IZR (Zpos m) / IZR (2 ^ Zpos p))%R
               end in
      if s then (- v)%R else v
  | _ => 0%R
  end.




(** *** Sample inputs *)

(** Two centroids at the exact distance [sqrt 2], and the [double] next
    above [sqrt 2]. *)
Definition diagonal : NumericMatrix := [mkCentroid 0 0 0; mkCentroid 1 1 0].

Definition above_sqrt2 : float := 0x1.6a09e667f3bcdp+0.

(** The [double]s nearest to 0.369, 0.492 and 0.615: a point whose exact
    planar distance from the origin is below the radius 0.615. *)
Definition x369 : float := 0x1.79db22d0e5604p-2.
Definition y492 : float := 0x1.f7ced916872bp-2.
Definition r615 : float := 0x1.3ae147ae147aep-1.


End B64.

(** A binary64 row read as exact coordinates. *)
Definition exact_row (c : B64.Centroid) : Centroid :=
  mkCentroid (B64.exact (B64.cX c)) (B64.exact (B64.cY c))
             (B64.exact (B64.cZ c)).

(** * Facts about the arithmetic *)

Lemma le_true a b : Cmath.le a b = true <-> a <= b.
Proof.
  unfold Cmath.le; destruct (Rle_dec a b); split; intros; auto; discriminate.
Qed.

Lemma ge_true a b : Cmath.ge a b = true <-> a >= b.
Proof.
  unfold Cmath.ge; destruct (Rge_dec a b); split; intros; auto; discriminate.
Qed.

Lemma lt_true a b : Cmath.lt a b = true <-> a < b.
Proof.
  unfold Cmath.lt; destruct (Rlt_dec a b); split; intros; auto; discriminate.
Qed.

Lemma lt_false a b : Cmath.lt a b = false <-> ~ a < b.
Proof.
  unfold Cmath.lt; destruct (Rlt_dec a b); split; intros; auto;
    try discriminate; contradiction.
Qed.


Lemma pow_2 x : Cmath.pow x 2 = x * x.
Proof. unfold Cmath.pow; simpl; ring. Qed.

Lemma pow_2_opp x : Cmath.pow (- x) 2 = Cmath.pow x 2.
Proof. rewrite !pow_2; ring. Qed.










(** * [InCylinder] *)

Lemma InCylinder_true px py pz r h cx cy cz :
  InCylinder px py pz r h cx cy cz = true
  <-> (px - cx) * (px - cx) + (py - cy) * (py - cy) <= r * r
      /\ cz - 0.5 * h <= pz <= cz + 0.5 * h.
Proof.
  unfold InCylinder.
  destruct (_ && _ && _) eqn:E.
  - apply andb_true_iff in E as [E Hhi]. apply andb_true_iff in E as [Hr Hlo].
    apply le_true in Hr, Hhi. apply ge_true in Hlo.
    rewrite !pow_2 in Hr. split; [intros _; lra | reflexivity].
  - split; [discriminate|]. intros [Hr [Hlo Hhi]].
    rewrite <- E, !andb_true_iff, !le_true, ge_true, !pow_2. lra.
Qed.

(** C10: the radius enters only through its square, so a negative radius
    is accepted and behaves as its absolute value. *)
Theorem InCylinder_radius_sign px py pz r h cx cy cz :
  InCylinder px py pz (- r) h cx cy cz = InCylinder px py pz r h cx cy cz.
Proof.
  unfold InCylinder. now rewrite pow_2_opp.
Qed.

(** * [VerticalDistance] and [EpanechnikovFunction] *)



(** * [GaussFunction] *)

Lemma Gauss_unfold w cx cy px py :
  GaussFunction w cx cy px py
  = exp (- 5 * (planar_distance px py cx cy / (w / 2)) ^ 2).
Proof.
  unfold GaussFunction, planar_distance, Cmath.pow.
  do 3 f_equal. f_equal. f_equal; ring.
Qed.




(** * [FindCluster] *)

Lemma delta_distance3 ctr i j :
  delta ctr i j = distance3 (centroid ctr i) (centroid ctr j).
Proof.
  unfold delta, distance3, cell, centroid. now rewrite !pow_2.
Qed.

Lemma distance3_nonneg a b : 0 <= distance3 a b.
Proof. apply sqrt_pos. Qed.

Lemma distance3_self a : distance3 a a = 0.
Proof.
  unfold distance3.
  replace (_ + _ + _) with 0 by ring. apply sqrt_0.
Qed.

Section Scan.

Variable ctr : NumericMatrix.
Variable epsilon : R.

(** Once [found] is set the loop condition fails at once. *)
Lemma scan_found i fuel j id : scan ctr epsilon i fuel j id true = (id, true).
Proof.
  destruct fuel; simpl; [reflexivity|].
  now rewrite andb_false_r.
Qed.

(** What the inner loop returns when it is entered at [j] with [found]
    unset and with enough iterations left to reach [i]. *)
Lemma scan_first_match i fuel : forall j id,
  (i - j <= fuel)%nat ->
  (exists k, (j <= k < i)%nat
     /\ scan ctr epsilon i fuel j id false = (k, true)
     /\ delta ctr i k < epsilon
     /\ forall m, (j <= m < k)%nat -> ~ delta ctr i m < epsilon)
  \/ (scan ctr epsilon i fuel j id false = (id, false)
      /\ forall m, (j <= m < i)%nat -> ~ delta ctr i m < epsilon).
Proof.
  induction fuel as [|fuel IH]; intros j id Hfuel; simpl.
  - right. split; [reflexivity|]. intros m Hm. lia.
  - destruct (Nat.ltb_spec j i) as [Hji | Hij]; simpl.
    + destruct (Cmath.lt (delta ctr i j) epsilon) eqn:Hlt.
      * left. exists j. rewrite scan_found. apply lt_true in Hlt.
        repeat split; try lia; try assumption.
      * apply lt_false in Hlt.
        destruct (IH (S j) id) as [(k & Hk & Hs & Hd & Hmin) | [Hs Hnone]];
          [lia | left | right].
        -- exists k. repeat split; try lia; try assumption.
           intros m Hm. destruct (Nat.eq_dec m j) as [-> | Hne];
             [assumption | apply Hmin; lia].
        -- split; [assumption|]. intros m Hm.
           destruct (Nat.eq_dec m j) as [-> | Hne];
             [assumption | apply Hnone; lia].
    + right. split; [reflexivity|]. intros m Hm. lia.
Qed.

Lemma scan_step i fuel j id found :
  scan ctr epsilon i (S fuel) j id found
  = if (j <? i)%nat && negb found then
      if Cmath.lt (delta ctr i j) epsilon
      then scan ctr epsilon i fuel (S j) j true
      else scan ctr epsilon i fuel (S j) id found
    else (id, found).
Proof. reflexivity. Qed.

(** Iterations beyond the [i - j] the loop can still make change nothing:
    the loop stops by its own condition, not by lack of fuel. *)
Lemma scan_more_fuel i fuel : forall j id found,
  (i - j <= fuel)%nat ->
  scan ctr epsilon i (S fuel) j id found = scan ctr epsilon i fuel j id found.
Proof.
  induction fuel as [|fuel IH]; intros j id found Hfuel.
  - rewrite scan_step. simpl.
    destruct (Nat.ltb_spec j i); [lia | reflexivity].
  - rewrite (scan_step i (S fuel) j id found), (scan_step i fuel j id found).
    destruct (Nat.ltb_spec j i) as [Hji | Hij]; [|reflexivity].
    destruct (negb found); cbn [andb]; [|reflexivity].
    destruct (Cmath.lt (delta ctr i j) epsilon); apply IH; lia.
Qed.

Lemma scan_fuel_enough i extra :
  scan ctr epsilon i (i + extra) 0 i false = scan ctr epsilon i i 0 i false.
Proof.
  induction extra as [|extra IH].
  - now rewrite Nat.add_0_r.
  - rewrite Nat.add_succ_r, scan_more_fuel by lia. exact IH.
Qed.

Lemma cluster_id_leader_rule i : leader_rule ctr epsilon i (cluster_id ctr epsilon i).
Proof.
  unfold cluster_id, leader_rule.
  destruct (scan_first_match i i 0 i) as [(k & Hk & -> & Hd & Hmin) | [-> Hnone]];
    [lia | left | right]; simpl.
  - rewrite delta_distance3 in Hd. repeat split; try lia; try assumption.
    intros j Hj. rewrite <- delta_distance3. apply Hmin. lia.
  - split; [reflexivity|]. intros j Hj.
    rewrite <- delta_distance3. apply Hnone. lia.
Qed.

(** The leader rule names one index. *)
Lemma leader_rule_unique i r r' :
  leader_rule ctr epsilon i r -> leader_rule ctr epsilon i r' -> r = r'.
Proof.
  intros [(Hr & Hd & Hmin) | (-> & Hnone)] [(Hr' & Hd' & Hmin') | (-> & Hnone')];
    try reflexivity.
  - destruct (Nat.lt_trichotomy r r') as [Hlt | [-> | Hgt]];
      [exfalso; now apply (Hmin' r) | reflexivity | exfalso; now apply (Hmin r')].
  - exfalso. now apply (Hnone' r).
  - exfalso. now apply (Hnone r').
Qed.

Lemma cluster_id_le i : (cluster_id ctr epsilon i <= i)%nat.
Proof.
  destruct (cluster_id_leader_rule i) as [(H & _) | (H & _)]; lia.
Qed.

Lemma cluster_id_self i :
  cluster_id ctr epsilon i = i ->
  forall j, (j < i)%nat ->
    ~ distance3 (centroid ctr i) (centroid ctr j) < epsilon.
Proof.
  intros Hself.
  destruct (cluster_id_leader_rule i) as [(H & _) | (_ & H)]; [lia | exact H].
Qed.

End Scan.

(** ** The outer loop *)

Lemma store_length clus i v : length (store clus i v) = length clus.
Proof.
  revert i; induction clus as [|h t IH]; intros [|i]; simpl; auto.
Qed.

Lemma store_firstn clus : forall i v,
  (i < length clus)%nat ->
  firstn (S i) (store clus i v) = firstn i clus ++ [v].
Proof.
  induction clus as [|h t IH]; intros [|i] v Hi; simpl in *; try lia.
  - reflexivity.
  - f_equal. apply IH. lia.
Qed.

(** Entered at [i] with enough iterations left, the loop keeps the entries
    below [i] and writes [cluster_id] into every entry from [i] on. *)
Lemma fill_from ctr epsilon fuel : forall i clus,
  length clus = nrow ctr ->
  (nrow ctr - i <= fuel)%nat ->
  fill ctr epsilon fuel i clus
  = firstn i clus ++ map (cluster_id ctr epsilon) (seq i (nrow ctr - i)).
Proof.
  induction fuel as [|fuel IH]; intros i clus Hlen Hfuel; simpl.
  - replace (nrow ctr - i)%nat with O by lia. simpl.
    rewrite app_nil_r, firstn_all2; [reflexivity | lia].
  - destruct (Nat.ltb_spec i (nrow ctr)) as [Hi | Hi].
    + rewrite IH by (rewrite ?store_length; lia).
      rewrite store_firstn by lia.
      replace (nrow ctr - i)%nat with (S (nrow ctr - S i)) by lia.
      simpl. now rewrite <- app_assoc.
    + replace (nrow ctr - i)%nat with O by lia. simpl.
      rewrite app_nil_r, firstn_all2; [reflexivity | lia].
Qed.

Lemma FindCluster_ID ctr epsilon :
  ID (FindCluster ctr epsilon)
  = map (cluster_id ctr epsilon) (seq 0 (nrow ctr)).
Proof.
  unfold FindCluster; simpl.
  rewrite fill_from by (rewrite ?repeat_length; lia).
  now rewrite Nat.sub_0_r.
Qed.

Lemma FindCluster_ID_length ctr epsilon :
  length (ID (FindCluster ctr epsilon)) = nrow ctr.
Proof. now rewrite FindCluster_ID, length_map, length_seq. Qed.

Lemma FindCluster_ID_nth ctr epsilon i :
  (i < nrow ctr)%nat ->
  nth i (ID (FindCluster ctr epsilon)) O = cluster_id ctr epsilon i.
Proof.
  intros Hi. rewrite FindCluster_ID.
  rewrite (nth_indep _ O (cluster_id ctr epsilon O))
    by (now rewrite length_map, length_seq).
  now rewrite map_nth, seq_nth.
Qed.

(** The coordinate columns of the table are the rows of the input, in
    input order. *)
Lemma rows_of_columns ctr : rows_of (map cX ctr) (map cY ctr) (map cZ ctr) = ctr.
Proof.
  induction ctr as [|[x y z] t IH]; simpl; [reflexivity|]. now rewrite IH.
Qed.

Lemma FindCluster_rows ctr epsilon :
  rows_of (X (FindCluster ctr epsilon)) (Y (FindCluster ctr epsilon))
          (Z (FindCluster ctr epsilon)) = ctr.
Proof. apply rows_of_columns. Qed.

(** ** Evaluation on sample inputs *)

Lemma cluster_id_eq ctr epsilon i r :
  leader_rule ctr epsilon i r -> cluster_id ctr epsilon i = r.
Proof.
  intros Hr. apply (leader_rule_unique ctr epsilon i); [|exact Hr].
  apply cluster_id_leader_rule.
Qed.

Lemma distance3_x_axis a b :
  distance3 (mkCentroid a 0 0) (mkCentroid b 0 0) = Rabs (a - b).
Proof.
  unfold distance3; simpl.
  replace (_ + _ + _) with (Rsqr (a - b)) by (unfold Rsqr; ring).
  apply sqrt_Rsqr_abs.
Qed.

(** Decides a comparison of a distance on the x axis with a constant. *)
Ltac x_axis :=
  unfold centroid; simpl nth; rewrite ?distance3_x_axis;
  unfold Rabs; destruct (Rcase_abs _); lra.

(** Settles [leader_rule] at a concrete matrix, index and id. *)
Ltac leader :=
  match goal with
  | |- leader_rule _ _ ?i ?i =>
      right; split; [reflexivity|];
      let j := fresh "j" in let Hj := fresh "Hj" in
      intros j Hj; do 4 (try destruct j as [|j]); try lia; x_axis
  | |- leader_rule _ _ _ _ =>
      left; split; [lia|]; split; [x_axis|];
      let j := fresh "j" in let Hj := fresh "Hj" in
      intros j Hj; do 4 (try destruct j as [|j]); try lia; x_axis
  end.

Lemma chain_ids : ID (FindCluster chain 0.6) = [0; 0; 1]%nat.
Proof.
  rewrite FindCluster_ID. simpl.
  rewrite (cluster_id_eq chain 0.6 0 0) by leader.
  rewrite (cluster_id_eq chain 0.6 1 0) by leader.
  rewrite (cluster_id_eq chain 0.6 2 1) by leader.
  reflexivity.
Qed.

Lemma chain_leader_coordinates :
  leader_coordinates (FindCluster chain 0.6)
  = [mkCentroid 0 0 0; mkCentroid 0 0 0; mkCentroid 0.5 0 0].
Proof.
  unfold leader_coordinates. rewrite FindCluster_rows, chain_ids.
  reflexivity.
Qed.

Lemma chain_reclustered_ids :
  ID (FindCluster (leader_coordinates (FindCluster chain 0.6)) 0.6)
  = [0; 0; 0]%nat.
Proof.
  rewrite chain_leader_coordinates, FindCluster_ID. simpl.
  rewrite (cluster_id_eq _ 0.6 0 0) by leader.
  rewrite (cluster_id_eq _ 0.6 1 0) by leader.
  rewrite (cluster_id_eq _ 0.6 2 0) by leader.
  reflexivity.
Qed.

Lemma pair_and_far_ids : ID (FindCluster pair_and_far 0.6) = [0; 0; 2]%nat.
Proof.
  rewrite FindCluster_ID. simpl.
  rewrite (cluster_id_eq pair_and_far 0.6 0 0) by leader.
  rewrite (cluster_id_eq pair_and_far 0.6 1 0) by leader.
  rewrite (cluster_id_eq pair_and_far 0.6 2 2) by leader.
  reflexivity.
Qed.

(** ** Epsilon that is not positive, and the empty input *)

Lemma cluster_id_nonpositive ctr epsilon i :
  epsilon <= 0 -> cluster_id ctr epsilon i = i.
Proof.
  intros Heps. apply cluster_id_eq. right. split; [reflexivity|].
  intros j _ Hlt.
  pose proof (distance3_nonneg (centroid ctr i) (centroid ctr j)). lra.
Qed.

Lemma map_seq_id (f : nat -> nat) n : forall s,
  (forall i, (s <= i < s + n)%nat -> f i = i) -> map f (seq s n) = seq s n.
Proof.
  induction n as [|n IH]; intros s Hf; simpl; [reflexivity|].
  rewrite Hf by lia. f_equal. apply IH. intros i Hi. apply Hf. lia.
Qed.

(** C8: [FindCluster] is a total function; the empty matrix gives the
    empty table, and with an epsilon that is zero or negative every centroid
    keeps its own index as id. *)
Theorem FindCluster_nonpositive_epsilon :
  (forall epsilon, FindCluster [] epsilon = mkDataFrame [] [] [] [])
  /\ (forall ctr epsilon,
        epsilon <= 0 ->
        ID (FindCluster ctr epsilon) = seq 0 (length ctr)
        /\ forall i, (i < length ctr)%nat ->
             nth i (ID (FindCluster ctr epsilon)) O = i).
Proof.
  split; [reflexivity|].
  intros ctr epsilon Heps. split.
  - rewrite FindCluster_ID. apply map_seq_id.
    intros i _. now apply cluster_id_nonpositive.
  - intros i Hi. rewrite FindCluster_ID_nth by exact Hi.
    now apply cluster_id_nonpositive.
Qed.

Lemma FindCluster_nonpositive_epsilon_witness :
  ID (FindCluster chain 0) = [0; 1; 2]%nat
  /\ ID (FindCluster chain (- 1)) = [0; 1; 2]%nat.
Proof.
  split.
  - apply (proj2 FindCluster_nonpositive_epsilon chain 0). lra.
  - apply (proj2 FindCluster_nonpositive_epsilon chain (- 1)). lra.
Defined.

(** ** Clustering the leaders again *)

Lemma leader_coordinates_FindCluster ctr epsilon :
  leader_coordinates (FindCluster ctr epsilon)
  = map (fun i => centroid ctr (cluster_id ctr epsilon i)) (seq 0 (nrow ctr)).
Proof.
  unfold leader_coordinates.
  now rewrite FindCluster_rows, FindCluster_ID, map_map.
Qed.

Lemma leader_coordinates_nrow ctr epsilon :
  nrow (leader_coordinates (FindCluster ctr epsilon)) = nrow ctr.
Proof.
  rewrite leader_coordinates_FindCluster. unfold nrow.
  now rewrite length_map, length_seq.
Qed.

Lemma leader_coordinates_centroid ctr epsilon i :
  (i < nrow ctr)%nat ->
  centroid (leader_coordinates (FindCluster ctr epsilon)) i
  = centroid ctr (cluster_id ctr epsilon i).
Proof.
  intros Hi. unfold centroid at 1. rewrite leader_coordinates_FindCluster.
  rewrite (nth_indep _ origin (centroid ctr (cluster_id ctr epsilon O)))
    by (now rewrite length_map, length_seq).
  now rewrite (map_nth (fun i => centroid ctr (cluster_id ctr epsilon i))),
    seq_nth.
Qed.

Lemma map_seq_ext (f g : nat -> nat) n : forall s,
  (forall i, (s <= i < s + n)%nat -> f i = g i) ->
  map f (seq s n) = map g (seq s n).
Proof.
  induction n as [|n IH]; intros s Hfg; simpl; [reflexivity|].
  rewrite Hfg by lia. f_equal. apply IH. intros i Hi. apply Hfg. lia.
Qed.

(** When every leader leads itself, the matrix of leader coordinates obeys
    the leader rule with the ids of the first pass. *)
Lemma recluster_leader_rule ctr epsilon i :
  (forall k, (k < nrow ctr)%nat ->
     cluster_id ctr epsilon (cluster_id ctr epsilon k)
     = cluster_id ctr epsilon k) ->
  (i < nrow ctr)%nat ->
  leader_rule (leader_coordinates (FindCluster ctr epsilon)) epsilon i
              (cluster_id ctr epsilon i).
Proof.
  intros Hidem Hi.
  assert (Hearlier : forall k j, (k <= i)%nat -> (j < k)%nat ->
            cluster_id ctr epsilon k = k ->
            ~ distance3 (centroid ctr k)
                        (centroid ctr (cluster_id ctr epsilon j)) < epsilon).
  { intros k j Hk Hj Hself.
    apply (cluster_id_self ctr epsilon k Hself).
    pose proof (cluster_id_le ctr epsilon j). lia. }
  destruct (cluster_id_leader_rule ctr epsilon i)
    as [(Hlt & Hd & Hmin) | (Heq & Hnone)].
  - set (k := cluster_id ctr epsilon i) in *.
    assert (Hk : cluster_id ctr epsilon k = k) by (apply Hidem; exact Hi).
    left. split; [exact Hlt|]. split.
    + rewrite !leader_coordinates_centroid by lia.
      fold k. rewrite Hk, distance3_self.
      pose proof (distance3_nonneg (centroid ctr i) (centroid ctr k)). lra.
    + intros j Hj. rewrite !leader_coordinates_centroid by lia.
      fold k. apply Hearlier; [lia | exact Hj | exact Hk].
  - rewrite Heq. right. split; [reflexivity|].
    intros j Hj. rewrite !leader_coordinates_centroid by lia.
    rewrite Heq. apply Hearlier; [lia | exact Hj | exact Heq].
Qed.

(** C9, as the code has it: when no leader is itself attached to an
    earlier centroid (the id of every id is that id), clustering the leader
    coordinates of the output again with the same epsilon gives the same
    ids. *)
Theorem FindCluster_recluster_fixed_point ctr epsilon :
  (forall i, (i < length ctr)%nat ->
     nth (nth i (ID (FindCluster ctr epsilon)) O)
         (ID (FindCluster ctr epsilon)) O
     = nth i (ID (FindCluster ctr epsilon)) O) ->
  ID (FindCluster (leader_coordinates (FindCluster ctr epsilon)) epsilon)
  = ID (FindCluster ctr epsilon).
Proof.
  intros Hidem.
  assert (Hidem' : forall k, (k < nrow ctr)%nat ->
     cluster_id ctr epsilon (cluster_id ctr epsilon k)
     = cluster_id ctr epsilon k).
  { intros k Hk. specialize (Hidem k Hk).
    rewrite (FindCluster_ID_nth ctr epsilon k Hk) in Hidem.
    rewrite FindCluster_ID_nth in Hidem; [exact Hidem|].
    pose proof (cluster_id_le ctr epsilon k). lia. }
  rewrite !FindCluster_ID, leader_coordinates_nrow.
  apply map_seq_ext. intros i Hi.
  apply cluster_id_eq. apply recluster_leader_rule; [exact Hidem' | lia].
Qed.

Lemma FindCluster_recluster_fixed_point_witness :
  ID (FindCluster (leader_coordinates (FindCluster pair_and_far 0.6)) 0.6)
  = ID (FindCluster pair_and_far 0.6).
Proof.
  apply FindCluster_recluster_fixed_point.
  rewrite pair_and_far_ids. simpl.
  intros i Hi. do 3 (try destruct i as [|i]); try reflexivity. lia.
Defined.

(** C9 as the spec states it fails on the spec's own chain A, B, C with
    epsilon 0.6: the ids are 0, 0, 1; the leader coordinates are A, A, B;
    clustering those gives 0, 0, 0. *)
Lemma FindCluster_recluster_chain :
  ID (FindCluster chain 0.6) = [0; 0; 1]%nat
  /\ ID (FindCluster (leader_coordinates (FindCluster chain 0.6)) 0.6)
     <> ID (FindCluster chain 0.6).
Proof.
  split; [exact chain_ids|].
  rewrite chain_reclustered_ids, chain_ids. discriminate.
Qed.

(** ** Clustering a sub-sequence that contains its own leaders *)

Lemma sorted_seq n : forall s, StronglySorted lt (seq s n).
Proof.
  induction n as [|n IH]; intros s; simpl; constructor.
  - apply IH.
  - apply Forall_forall. intros x Hx. apply in_seq in Hx. lia.
Qed.

Lemma sorted_filter (f : nat -> bool) l :
  StronglySorted lt l -> StronglySorted lt (filter f l).
Proof.
  induction 1 as [|a l Hs IH Hall]; simpl; [constructor|].
  destruct (f a); [|exact IH].
  constructor; [exact IH|].
  apply Forall_forall. intros x Hx. apply filter_In in Hx as [Hx _].
  rewrite Forall_forall in Hall. now apply Hall.
Qed.

Lemma sorted_nth_lt l :
  StronglySorted lt l ->
  forall p q, (p < q < length l)%nat -> (nth p l O < nth q l O)%nat.
Proof.
  induction 1 as [|a l Hs IH Hall]; intros p q Hpq; simpl in *; [lia|].
  destruct q as [|q]; [lia|]. destruct p as [|p].
  - rewrite Forall_forall in Hall. apply Hall. apply nth_In. lia.
  - apply IH. lia.
Qed.

Lemma sorted_nth_le l :
  StronglySorted lt l ->
  forall p q, (p < length l)%nat -> (q < length l)%nat ->
    (nth p l O <= nth q l O)%nat -> (p <= q)%nat.
Proof.
  intros Hs p q Hp Hq Hle.
  destruct (Nat.le_gt_cases p q) as [H | H]; [exact H|].
  pose proof (sorted_nth_lt l Hs q p). lia.
Qed.

Lemma map_nth_seq l : map (fun k => nth k l O) (seq 0 (length l)) = l.
Proof.
  apply (nth_ext _ _ O O).
  - now rewrite length_map, length_seq.
  - intros n Hn. rewrite length_map, length_seq in Hn.
    rewrite (nth_indep _ O (nth O l O)) by (now rewrite length_map, length_seq).
    now rewrite (map_nth (fun k => nth k l O)), seq_nth.
Qed.

Section Subsequence.

Variable ctr : NumericMatrix.
Variable epsilon : R.

(** Increasing row indices of [ctr], with the leader of each. *)
Variable sel : list nat.
Hypothesis sel_sorted : StronglySorted lt sel.
Hypothesis sel_closed :
  forall s, In s sel -> In (cluster_id ctr epsilon s) sel.

Let sub : NumericMatrix := map (centroid ctr) sel.

Lemma sub_centroid k :
  (k < length sel)%nat -> centroid sub k = centroid ctr (nth k sel O).
Proof.
  intros Hk. unfold centroid at 1, sub.
  rewrite (nth_indep _ origin (centroid ctr O)) by (now rewrite length_map).
  apply (map_nth (centroid ctr)).
Qed.

(** In the sub-sequence, row [k] gets the position of the leader that the
    row had in [ctr]. *)
Lemma subsequence_cluster_id k :
  (k < length sel)%nat ->
  nth (cluster_id sub epsilon k) sel O = cluster_id ctr epsilon (nth k sel O).
Proof.
  intros Hk.
  set (s := nth k sel O).
  assert (Hs : In s sel) by (apply nth_In; exact Hk).
  destruct (In_nth sel _ O (sel_closed s Hs)) as (p & Hp & Hnth).
  assert (Hpk : (p <= k)%nat).
  { apply (sorted_nth_le sel sel_sorted); try assumption.
    rewrite Hnth. apply cluster_id_le. }
  rewrite <- Hnth. f_equal. apply cluster_id_eq.
  assert (Hbelow : forall q, (q < p)%nat ->
            ~ distance3 (centroid sub k) (centroid sub q) < epsilon).
  { intros q Hq. rewrite !sub_centroid by lia. fold s.
    pose proof (sorted_nth_lt sel sel_sorted q p) as Hlt.
    destruct (cluster_id_leader_rule ctr epsilon s)
      as [(_ & _ & Hmin) | (Heq & Hnone)].
    - apply Hmin. rewrite <- Hnth. apply Hlt. lia.
    - apply Hnone. rewrite Heq in Hnth. rewrite <- Hnth. apply Hlt. lia. }
  destruct (Nat.eq_dec p k) as [-> | Hne].
  - right. split; [reflexivity | exact Hbelow].
  - left. split; [lia|]. split; [|exact Hbelow].
    rewrite !sub_centroid by lia. fold s. rewrite Hnth.
    destruct (cluster_id_leader_rule ctr epsilon s)
      as [(_ & Hd & _) | (Heq & _)]; [exact Hd|].
    exfalso. apply Hne.
    apply Nat.le_antisymm; [exact Hpk|].
    apply (sorted_nth_le sel sel_sorted); try assumption.
    fold s. rewrite Hnth, Heq. apply Nat.le_refl.
Qed.

Lemma subsequence_ids :
  map (fun k => nth k sel O) (ID (FindCluster sub epsilon))
  = map (cluster_id ctr epsilon) sel.
Proof.
  rewrite FindCluster_ID, map_map.
  replace (nrow sub) with (length sel) by (unfold nrow, sub; now rewrite length_map).
  transitivity
    (map (cluster_id ctr epsilon)
         (map (fun k => nth k sel O) (seq 0 (length sel))));
    [|now rewrite map_nth_seq].
  rewrite map_map. apply map_ext_in. intros k Hk. apply in_seq in Hk.
  apply subsequence_cluster_id. lia.
Qed.

End Subsequence.

Lemma is_leader_In ids j : is_leader ids j = true <-> In j ids.
Proof.
  unfold is_leader. rewrite existsb_exists. split.
  - intros (x & Hx & Heq). apply Nat.eqb_eq in Heq. now subst.
  - intros Hj. exists j. split; [exact Hj | apply Nat.eqb_refl].
Qed.

Lemma leaders_spec ctr epsilon s :
  In s (leaders (FindCluster ctr epsilon))
  <-> (s < nrow ctr)%nat
      /\ exists i, (i < nrow ctr)%nat /\ cluster_id ctr epsilon i = s.
Proof.
  unfold leaders. rewrite filter_In, is_leader_In, in_seq.
  rewrite FindCluster_ID_length, FindCluster_ID, in_map_iff.
  split.
  - intros [Hs (i & Hi & Hin)]. apply in_seq in Hin.
    split; [lia|]. exists i. split; [lia | exact Hi].
  - intros [Hs (i & Hi & Hid)]. split; [lia|].
    exists i. split; [exact Hid | apply in_seq; lia].
Qed.

(** Under the reading "cluster the sequence of leader centroids": every
    leader keeps its leader, named by its position in that sequence. *)
Theorem FindCluster_leader_rows ctr epsilon :
  let out := FindCluster ctr epsilon in
  map (fun k => nth k (leaders out) O)
      (ID (FindCluster (leader_rows out) epsilon))
  = map (fun l => nth l (ID out) O) (leaders out).
Proof.
  intros out. unfold leader_rows.
  unfold out at 2 3 4. rewrite FindCluster_rows. fold (centroid ctr).
  rewrite (subsequence_ids ctr epsilon (leaders out)).
  - apply map_ext_in. intros l Hl. apply leaders_spec in Hl as [Hl _].
    symmetry. now apply FindCluster_ID_nth.
  - apply sorted_filter, sorted_seq.
  - intros s Hs. apply leaders_spec in Hs as [Hs _].
    apply leaders_spec.
    pose proof (cluster_id_le ctr epsilon s).
    split; [lia|]. exists s. split; [exact Hs | reflexivity].
Qed.

(** * Further properties of [InCylinder] *)

(** A cylinder with a larger radius and a larger height around the same
    center contains every point of the smaller one. *)
Theorem InCylinder_monotone px py pz r r' h h' cx cy cz :
  0 <= r <= r' -> h <= h' ->
  InCylinder px py pz r h cx cy cz = true ->
  InCylinder px py pz r' h' cx cy cz = true.
Proof.
  intros Hr Hh Hin. apply InCylinder_true in Hin. apply InCylinder_true.
  assert (r * r <= r' * r') by nra. lra.
Qed.

Lemma InCylinder_monotone_witness : InCylinder 0 0 0 2 3 0 0 0 = true.
Proof.
  apply (InCylinder_monotone 0 0 0 1 2 1 3 0 0 0); try lra.
  apply InCylinder_true. lra.
Defined.

(** * Further properties of [GaussFunction] *)

(** The square root cancels against the square: the exponent is a
    multiple of the squared planar distance. *)
Lemma Gauss_squared w cx cy px py :
  GaussFunction w cx cy px py
  = exp (- 5 * (((px - cx) * (px - cx) + (py - cy) * (py - cy))
                * (/ (w / 2) * / (w / 2)))).
Proof.
  rewrite Gauss_unfold. unfold planar_distance. f_equal. f_equal.
  assert (Hs : 0 <= (px - cx) * (px - cx) + (py - cy) * (py - cy))
    by (apply Rplus_le_le_0_compat; apply Rle_0_sqr).
  rewrite <- (sqrt_sqrt _ Hs) at 2. unfold Rdiv at 1. ring.
Qed.


(** The width enters only through its square: a negative width is
    accepted and behaves as its absolute value. *)
Theorem Gauss_width_sign w cx cy px py :
  w <> 0 ->
  GaussFunction (- w) cx cy px py = GaussFunction w cx cy px py.
Proof.
  intros Hw. rewrite !Gauss_squared. f_equal. f_equal. f_equal.
  field. lra.
Qed.

Lemma Gauss_width_sign_witness :
  GaussFunction (- 2) 0 0 1 0 = GaussFunction 2 0 0 1 0.
Proof.
  apply Gauss_width_sign. lra.
Defined.

(** * Further properties of [FindCluster] *)

(** The id of row [i] only depends on which earlier rows are nearer than
    epsilon. *)
Lemma leader_rule_transfer ctr1 eps1 ctr2 eps2 i r :
  (forall j, (j <= i)%nat ->
     (distance3 (centroid ctr1 i) (centroid ctr1 j) < eps1
      <-> distance3 (centroid ctr2 i) (centroid ctr2 j) < eps2)) ->
  leader_rule ctr1 eps1 i r -> leader_rule ctr2 eps2 i r.
Proof.
  intros Hsame [(Hr & Hd & Hmin) | (Hr & Hnone)]; [left | right].
  - split; [exact Hr|]. split.
    + apply Hsame; [lia | exact Hd].
    + intros j Hj Hlt. apply (Hmin j Hj). apply Hsame; [lia | exact Hlt].
  - split; [exact Hr|].
    intros j Hj Hlt. apply (Hnone j Hj). apply Hsame; [lia | exact Hlt].
Qed.

Lemma cluster_id_transfer ctr1 eps1 ctr2 eps2 i :
  (forall j, (j <= i)%nat ->
     (distance3 (centroid ctr1 i) (centroid ctr1 j) < eps1
      <-> distance3 (centroid ctr2 i) (centroid ctr2 j) < eps2)) ->
  cluster_id ctr2 eps2 i = cluster_id ctr1 eps1 i.
Proof.
  intros Hsame. apply cluster_id_eq.
  apply (leader_rule_transfer ctr1 eps1); [exact Hsame|].
  apply cluster_id_leader_rule.
Qed.

(** Every id is the index of the row itself or of an earlier row, so it is
    a valid row index; the first row always leads itself. *)
Theorem FindCluster_ids_backward ctr epsilon i :
  (i < length ctr)%nat ->
  (nth i (ID (FindCluster ctr epsilon)) O <= i)%nat
  /\ (nth i (ID (FindCluster ctr epsilon)) O < length ctr)%nat
  /\ nth O (ID (FindCluster ctr epsilon)) O = O.
Proof.
  intros Hi.
  rewrite (FindCluster_ID_nth ctr epsilon i Hi).
  rewrite (FindCluster_ID_nth ctr epsilon O) by (unfold nrow; lia).
  pose proof (cluster_id_le ctr epsilon i).
  pose proof (cluster_id_le ctr epsilon O). lia.
Qed.

Lemma FindCluster_ids_backward_witness :
  (nth 2 (ID (FindCluster chain 0.6)) O <= 2)%nat.
Proof.
  apply (FindCluster_ids_backward chain 0.6 2). simpl. lia.
Defined.

(** Rows appended to the matrix never change the ids of the rows before
    them. *)
Theorem FindCluster_append ctr more epsilon :
  firstn (length ctr) (ID (FindCluster (ctr ++ more) epsilon))
  = ID (FindCluster ctr epsilon).
Proof.
  rewrite !FindCluster_ID. unfold nrow. rewrite length_app.
  rewrite seq_app, map_app, firstn_app, length_map, length_seq.
  rewrite Nat.sub_diag, firstn_O, app_nil_r.
  rewrite firstn_all2 by (now rewrite length_map, length_seq).
  apply map_ext_in. intros i Hi. apply in_seq in Hi.
  apply cluster_id_transfer. intros j Hj.
  unfold centroid. rewrite !app_nth1 by lia. reflexivity.
Qed.

(** A larger epsilon can only move an id to an earlier row. *)
Theorem FindCluster_epsilon_monotone ctr eps1 eps2 i :
  eps1 <= eps2 -> (i < length ctr)%nat ->
  (nth i (ID (FindCluster ctr eps2)) O
   <= nth i (ID (FindCluster ctr eps1)) O)%nat.
Proof.
  intros Heps Hi. rewrite !FindCluster_ID_nth by exact Hi.
  destruct (cluster_id_leader_rule ctr eps1 i)
    as [(Hr1 & Hd1 & _) | (Hr1 & _)];
    [|rewrite Hr1; apply cluster_id_le].
  destruct (cluster_id_leader_rule ctr eps2 i)
    as [(_ & _ & Hmin2) | (Hr2 & Hnone2)].
  - destruct (Nat.le_gt_cases (cluster_id ctr eps2 i) (cluster_id ctr eps1 i))
      as [H | H]; [exact H|].
    exfalso. apply (Hmin2 _ H). lra.
  - exfalso. apply (Hnone2 _ Hr1). lra.
Qed.

Lemma FindCluster_epsilon_monotone_witness :
  (nth 2 (ID (FindCluster chain 0.6)) O
   <= nth 2 (ID (FindCluster chain 0)) O)%nat.
Proof.
  apply FindCluster_epsilon_monotone; [lra | simpl; lia].
Defined.

(** With a positive epsilon a row that repeats an earlier row never
    leads itself: its id is at most the index of that earlier row. *)
Theorem FindCluster_duplicate ctr epsilon i j :
  0 < epsilon -> (j < i < length ctr)%nat ->
  nth i ctr origin = nth j ctr origin ->
  (nth i (ID (FindCluster ctr epsilon)) O <= j)%nat.
Proof.
  intros Heps [Hj Hi] Hsame. rewrite FindCluster_ID_nth by exact Hi.
  assert (Hd : distance3 (centroid ctr i) (centroid ctr j) < epsilon).
  { unfold centroid. rewrite Hsame, distance3_self. exact Heps. }
  destruct (cluster_id_leader_rule ctr epsilon i)
    as [(_ & _ & Hmin) | (_ & Hnone)].
  - destruct (Nat.le_gt_cases (cluster_id ctr epsilon i) j) as [H | H];
      [exact H|].
    exfalso. now apply (Hmin j H).
  - exfalso. now apply (Hnone j Hj).
Qed.

Lemma FindCluster_duplicate_witness :
  (nth 1 (ID (FindCluster
                [mkCentroid 0 0 0; mkCentroid 0 0 0; mkCentroid 0.5 0 0] 0.6)) O
   <= 0)%nat.
Proof.
  apply FindCluster_duplicate; [lra | simpl; lia | reflexivity].
Defined.




(** * The binary64 embedding: facts *)

Module B64Facts.

Import Floats.
Local Open Scope float_scope.

(** ** Comparisons *)

(** Equal [double]s compare [<=]: the tests of the code are inclusive. *)
Lemma eqb_leb x y : (x =? y) = true -> (x <=? y) = true.
Proof.
  rewrite eqb_spec, leb_spec. unfold SFeqb, SFleb.
  destruct (SFcompare (Prim2SF x) (Prim2SF y)) as [[ | | ]|];
    intros H; try reflexivity; discriminate.
Qed.

(** ** [InCylinder] *)

(** C3, as the code has it: the result is true exactly when the rounded
    sum of the rounded squares of the planar offsets is at most the rounded
    square of the radius and the point's z lies between the rounded bounds
    [cz - 0.5 h] and [cz + 0.5 h]; the three tests are inclusive on these
    computed values, so equality in any of them still gives true. *)
Theorem InCylinder_computed_inclusive px py pz r h cx cy cz :
  let d2 := B64.pow2 (px - cx) + B64.pow2 (py - cy) in
  let r2 := B64.pow2 r in
  let lo := cz - 0.5 * h in
  let hi := cz + 0.5 * h in
  (B64.InCylinder px py pz r h cx cy cz = true
   <-> (d2 <=? r2) = true /\ (lo <=? pz) = true /\ (pz <=? hi) = true)
  /\ ((d2 =? r2) = true -> (lo <=? pz) = true -> (pz <=? hi) = true ->
      B64.InCylinder px py pz r h cx cy cz = true)
  /\ ((d2 <=? r2) = true -> (lo =? pz) = true -> (pz <=? hi) = true ->
      B64.InCylinder px py pz r h cx cy cz = true)
  /\ ((d2 <=? r2) = true -> (lo <=? pz) = true -> (pz =? hi) = true ->
      B64.InCylinder px py pz r h cx cy cz = true).
Proof.
  intros d2 r2 lo hi.
  assert (Hiff : B64.InCylinder px py pz r h cx cy cz = true
     <-> (d2 <=? r2) = true /\ (lo <=? pz) = true /\ (pz <=? hi) = true).
  { unfold B64.InCylinder, B64.ge. fold d2 r2 lo hi.
    destruct (d2 <=? r2), (lo <=? pz), (pz <=? hi); simpl;
      split; try tauto; try discriminate;
      intros (H1 & H2 & H3); discriminate. }
  split; [exact Hiff|]. repeat split; intros H1 H2 H3; apply Hiff;
    repeat split; try assumption; now apply eqb_leb.
Qed.

Lemma InCylinder_computed_inclusive_witness :
  B64.InCylinder 3 4 1 5 2 0 0 0 = true.
Proof.
  apply (proj2 (proj2 (proj2 (InCylinder_computed_inclusive 3 4 1 5 2 0 0 0))));
    reflexivity.
Defined.

(** The point (0.369, 0.492) and the radius 0.615, as [double]s: the
    rounded sum of squares is above the rounded square of the radius. *)
Lemma InCylinder_x369 :
  B64.InCylinder B64.x369 B64.y492 0 B64.r615 1 0 0 0 = false.
Proof. reflexivity. Qed.

(** ** Exact values of the sample inputs *)

Ltac exact_value :=
  unfold B64.exact;
  match goal with
  | |- context [Prim2SF ?x] =>
      let v := eval vm_compute in (Prim2SF x) in
      change (Prim2SF x) with v
  end;
  cbv beta iota;
  try match goal with
      | |- context [(2 ^ Zpos ?p)%Z] =>
          let z := eval vm_compute in (2 ^ Zpos p)%Z in
          change (2 ^ Zpos p)%Z with z
      end.

Lemma exact_0 : B64.exact 0 = 0%R.
Proof. exact_value. reflexivity. Qed.

Lemma exact_1 : B64.exact 1 = 1%R.
Proof. exact_value. lra. Qed.

Lemma exact_above_sqrt2 :
  B64.exact B64.above_sqrt2 = (6369051672525773 / 4503599627370496)%R.
Proof. unfold B64.above_sqrt2. exact_value. reflexivity. Qed.

Lemma exact_x369 :
  B64.exact B64.x369 = (6647313049998852 / 18014398509481984)%R.
Proof. unfold B64.x369. exact_value. reflexivity. Qed.

Lemma exact_y492 :
  B64.exact B64.y492 = (8863084066665136 / 18014398509481984)%R.
Proof. unfold B64.y492. exact_value. lra. Qed.

Lemma exact_r615 :
  B64.exact B64.r615 = (5539427541665710 / 9007199254740992)%R.
Proof. unfold B64.r615. exact_value. reflexivity. Qed.

(** ** [VerticalDistance] and [EpanechnikovFunction] *)







(** ** [FindCluster] *)

Section Scan64.

Variable ctr : B64.NumericMatrix.
Variable epsilon : float.

Lemma scan64_found i fuel j id :
  B64.scan ctr epsilon i fuel j id true = (id, true).
Proof.
  destruct fuel; simpl; [reflexivity|].
  now rewrite andb_false_r.
Qed.

Lemma scan64_first_match i fuel : forall j id,
  (i - j <= fuel)%nat ->
  (exists k, (j <= k < i)%nat
     /\ B64.scan ctr epsilon i fuel j id false = (k, true)
     /\ (B64.delta ctr i k <? epsilon) = true
     /\ forall m, (j <= m < k)%nat -> (B64.delta ctr i m <? epsilon) = false)
  \/ (B64.scan ctr epsilon i fuel j id false = (id, false)
      /\ forall m, (j <= m < i)%nat -> (B64.delta ctr i m <? epsilon) = false).
Proof.
  induction fuel as [|fuel IH]; intros j id Hfuel; simpl.
  - right. split; [reflexivity|]. intros m Hm. lia.
  - destruct (Nat.ltb_spec j i) as [Hji | Hij]; simpl.
    + destruct (B64.delta ctr i j <? epsilon) eqn:Hlt.
      * left. exists j. rewrite scan64_found.
        repeat split; try lia; try assumption.
      * destruct (IH (S j) id) as [(k & Hk & Hs & Hd & Hmin) | [Hs Hnone]];
          [lia | left | right].
        -- exists k. repeat split; try lia; try assumption.
           intros m Hm. destruct (Nat.eq_dec m j) as [-> | Hne];
             [assumption | apply Hmin; lia].
        -- split; [assumption|]. intros m Hm.
           destruct (Nat.eq_dec m j) as [-> | Hne];
             [assumption | apply Hnone; lia].
    + right. split; [reflexivity|]. intros m Hm. lia.
Qed.

Lemma cluster_id_first_match i :
  B64.first_match ctr epsilon i (B64.cluster_id ctr epsilon i).
Proof.
  unfold B64.cluster_id, B64.first_match.
  destruct (scan64_first_match i i 0 i) as [(k & Hk & -> & Hd & Hmin) | [-> Hnone]];
    [lia | left | right]; simpl.
  - repeat split; try lia; try assumption. intros j Hj. apply Hmin. lia.
  - split; [reflexivity|]. intros j Hj. apply Hnone. lia.
Qed.

Lemma first_match_unique i r r' :
  B64.first_match ctr epsilon i r -> B64.first_match ctr epsilon i r' -> r = r'.
Proof.
  intros [(Hr & Hd & Hmin) | (-> & Hnone)] [(Hr' & Hd' & Hmin') | (-> & Hnone')];
    try reflexivity.
  - destruct (Nat.lt_trichotomy r r') as [Hlt | [-> | Hgt]]; [|reflexivity|].
    + rewrite (Hmin' r Hlt) in Hd. discriminate.
    + rewrite (Hmin r' Hgt) in Hd'. discriminate.
  - rewrite (Hnone' r Hr) in Hd. discriminate.
  - rewrite (Hnone r' Hr') in Hd'. discriminate.
Qed.

Lemma fill64_from fuel : forall i clus,
  length clus = B64.nrow ctr ->
  (B64.nrow ctr - i <= fuel)%nat ->
  B64.fill ctr epsilon fuel i clus
  = firstn i clus
    ++ map (B64.cluster_id ctr epsilon) (seq i (B64.nrow ctr - i)).
Proof.
  induction fuel as [|fuel IH]; intros i clus Hlen Hfuel; simpl.
  - replace (B64.nrow ctr - i)%nat with O by lia. simpl.
    rewrite app_nil_r, firstn_all2; [reflexivity | lia].
  - destruct (Nat.ltb_spec i (B64.nrow ctr)) as [Hi | Hi].
    + rewrite IH by (rewrite ?store_length; lia).
      rewrite store_firstn by lia.
      replace (B64.nrow ctr - i)%nat with (S (B64.nrow ctr - S i)) by lia.
      simpl. now rewrite <- app_assoc.
    + replace (B64.nrow ctr - i)%nat with O by lia. simpl.
      rewrite app_nil_r, firstn_all2; [reflexivity | lia].
Qed.

Lemma FindCluster64_ID :
  B64.ID (B64.FindCluster ctr epsilon)
  = map (B64.cluster_id ctr epsilon) (seq 0 (B64.nrow ctr)).
Proof.
  unfold B64.FindCluster; simpl.
  rewrite fill64_from by (rewrite ?repeat_length; lia).
  now rewrite Nat.sub_0_r.
Qed.

Lemma FindCluster64_ID_nth i :
  (i < B64.nrow ctr)%nat ->
  nth i (B64.ID (B64.FindCluster ctr epsilon)) O = B64.cluster_id ctr epsilon i.
Proof.
  intros Hi. rewrite FindCluster64_ID.
  rewrite (nth_indep _ O (B64.cluster_id ctr epsilon O))
    by (now rewrite length_map, length_seq).
  now rewrite map_nth, seq_nth.
Qed.

Lemma rows_of_columns64 :
  B64.rows_of (map B64.cX ctr) (map B64.cY ctr) (map B64.cZ ctr) = ctr.
Proof.
  induction ctr as [|[x y z] t IH]; simpl; [reflexivity|]. now rewrite IH.
Qed.

End Scan64.

(** C1, as the code has it: the table keeps the centroids in input order
    with one id each, and the id of centroid [i] is the smallest earlier
    index [j] for which the distance computed in binary64 (rounded squares,
    rounded sums, rounded square root) compares strictly below epsilon, or
    [i] when there is none. *)
Theorem FindCluster_first_match_computed ctr epsilon :
  B64.rows_of (B64.X (B64.FindCluster ctr epsilon))
              (B64.Y (B64.FindCluster ctr epsilon))
              (B64.Z (B64.FindCluster ctr epsilon)) = ctr
  /\ length (B64.ID (B64.FindCluster ctr epsilon)) = length ctr
  /\ forall i, (i < length ctr)%nat ->
       B64.first_match ctr epsilon i
         (nth i (B64.ID (B64.FindCluster ctr epsilon)) O).
Proof.
  split; [apply rows_of_columns64|]. split.
  - now rewrite FindCluster64_ID, length_map, length_seq.
  - intros i Hi. rewrite FindCluster64_ID_nth by exact Hi.
    apply cluster_id_first_match.
Qed.

Lemma FindCluster_first_match_computed_witness :
  B64.first_match B64.diagonal B64.above_sqrt2 1
    (nth 1 (B64.ID (B64.FindCluster B64.diagonal B64.above_sqrt2)) O).
Proof.
  apply (proj2 (proj2
           (FindCluster_first_match_computed B64.diagonal B64.above_sqrt2))).
  simpl. lia.
Defined.

(** On the diagonal pair the code keeps both rows apart. *)
Lemma diagonal_ids :
  B64.ID (B64.FindCluster B64.diagonal B64.above_sqrt2) = [0; 1]%nat.
Proof. reflexivity. Qed.

(** Row [i] gets the id zero exactly when it is the first row or its
    computed distance to the first row compares below epsilon. *)
Theorem FindCluster_id_zero_computed ctr epsilon i :
  (i < length ctr)%nat ->
  (nth i (B64.ID (B64.FindCluster ctr epsilon)) O = O
   <-> i = O \/ (B64.delta ctr i 0 <? epsilon) = true).
Proof.
  intros Hi. rewrite FindCluster64_ID_nth by exact Hi. split.
  - intros H0.
    destruct (cluster_id_first_match ctr epsilon i)
      as [(_ & Hd & _) | (Hr & _)].
    + right. now rewrite H0 in Hd.
    + left. lia.
  - intros [-> | Hd].
    + destruct (cluster_id_first_match ctr epsilon O)
        as [(H & _) | (H & _)]; lia.
    + destruct (Nat.eq_dec i O) as [-> | Hne].
      * destruct (cluster_id_first_match ctr epsilon O)
          as [(H & _) | (H & _)]; lia.
      * apply (first_match_unique ctr epsilon i);
          [apply cluster_id_first_match|].
        left. split; [lia|]. split; [exact Hd|]. intros j Hj. lia.
Qed.

Lemma FindCluster_id_zero_computed_witness :
  nth 1 (B64.ID (B64.FindCluster
                   [B64.mkCentroid 0 0 0; B64.mkCentroid 0.5 0 0]
                   0x1.3333333333333p-1)) O = O.
Proof.
  apply FindCluster_id_zero_computed; [simpl; lia|].
  right. reflexivity.
Defined.

(** Of two rows that both lead themselves, the later one has a computed
    distance to the earlier one that does not compare below epsilon. *)
Theorem FindCluster_leaders_apart_computed ctr epsilon i j :
  (i < j < length ctr)%nat ->
  nth i (B64.ID (B64.FindCluster ctr epsilon)) O = i ->
  nth j (B64.ID (B64.FindCluster ctr epsilon)) O = j ->
  (B64.delta ctr j i <? epsilon) = false.
Proof.
  intros [Hij Hj] _ Hlj.
  rewrite FindCluster64_ID_nth in Hlj by exact Hj.
  destruct (cluster_id_first_match ctr epsilon j)
    as [(H & _) | (_ & Hnone)]; [lia|].
  now apply Hnone.
Qed.

Lemma FindCluster_leaders_apart_computed_witness :
  (B64.delta B64.diagonal 1 0 <? B64.above_sqrt2) = false.
Proof.
  apply (FindCluster_leaders_apart_computed B64.diagonal B64.above_sqrt2 0 1);
    [simpl; lia | reflexivity | reflexivity].
Defined.

End B64Facts.

(** * Exact distances against the computed ones *)

(** C1 as the spec states it fails.  The rows (0,0,0) and (1,1,0) are at
    the exact Euclidean distance [sqrt 2], which is below the epsilon
    0x1.6a09e667f3bcdp+0; the rule with the exact distance gives row 1 the
    id 0.  The code rounds the square root up to that very epsilon, finds
    no match and keeps the id 1. *)
Lemma FindCluster_exact_distance_fails :
  nth 1 (B64.ID (B64.FindCluster B64.diagonal B64.above_sqrt2)) O = 1%nat
  /\ distance3 (centroid (map exact_row B64.diagonal) 1)
               (centroid (map exact_row B64.diagonal) 0)
     < B64.exact B64.above_sqrt2
  /\ ~ leader_rule (map exact_row B64.diagonal) (B64.exact B64.above_sqrt2) 1
         (nth 1 (B64.ID (B64.FindCluster B64.diagonal B64.above_sqrt2)) O).
Proof.
  assert (Hid : nth 1 (B64.ID (B64.FindCluster B64.diagonal B64.above_sqrt2)) O
                = 1%nat) by (rewrite B64Facts.diagonal_ids; reflexivity).
  assert (Hd : distance3 (centroid (map exact_row B64.diagonal) 1)
                         (centroid (map exact_row B64.diagonal) 0)
               < B64.exact B64.above_sqrt2).
  { unfold centroid, B64.diagonal, exact_row, distance3. simpl.
    rewrite B64Facts.exact_0, B64Facts.exact_1, B64Facts.exact_above_sqrt2.
    replace ((1 - 0) * (1 - 0) + (1 - 0) * (1 - 0) + (0 - 0) * (0 - 0))
      with 2 by ring.
    rewrite <- (sqrt_square (6369051672525773 / 4503599627370496)) by lra.
    apply sqrt_lt_1_alt. lra. }
  split; [exact Hid|]. split; [exact Hd|].
  rewrite Hid. intros [(Hlt & _) | (_ & Hnone)]; [lia|].
  apply (Hnone O); [lia | exact Hd].
Qed.

(** C3 as the spec states it fails.  The [double]s nearest to 0.369 and
    0.492 give a point whose exact planar distance from the origin is below
    the [double] nearest to 0.615, and whose z is inside the window; the
    code squares, rounds, adds and rounds, gets a sum above the rounded
    square of the radius and answers false. *)
Lemma InCylinder_exact_distance_fails :
  0 <= B64.exact B64.r615
  /\ 0 <= B64.exact PrimFloat.one
  /\ B64.InCylinder B64.x369 B64.y492 PrimFloat.zero B64.r615 PrimFloat.one
                    PrimFloat.zero PrimFloat.zero PrimFloat.zero = false
  /\ ~ (B64.InCylinder B64.x369 B64.y492 PrimFloat.zero B64.r615 PrimFloat.one
                       PrimFloat.zero PrimFloat.zero PrimFloat.zero = true
        <-> planar_distance (B64.exact B64.x369) (B64.exact B64.y492)
                            (B64.exact PrimFloat.zero) (B64.exact PrimFloat.zero)
            <= B64.exact B64.r615
            /\ B64.exact PrimFloat.zero - B64.exact PrimFloat.one / 2
               <= B64.exact PrimFloat.zero
               <= B64.exact PrimFloat.zero + B64.exact PrimFloat.one / 2).
Proof.
  pose proof B64Facts.InCylinder_x369 as Hcode.
  unfold PrimFloat.zero, PrimFloat.one.
  rewrite B64Facts.exact_0, B64Facts.exact_1, B64Facts.exact_r615,
    B64Facts.exact_x369, B64Facts.exact_y492.
  split; [lra|]. split; [lra|]. split; [exact Hcode|].
  intros [_ Hback].
  assert (Hin : B64.InCylinder B64.x369 B64.y492 PrimFloat.zero B64.r615
                  PrimFloat.one PrimFloat.zero PrimFloat.zero PrimFloat.zero
                = true).
  { unfold PrimFloat.zero, PrimFloat.one. apply Hback. split; [|lra].
    unfold planar_distance.
    rewrite <- (sqrt_square (5539427541665710 / 9007199254740992)) by lra.
    apply sqrt_le_1_alt. lra. }
  unfold PrimFloat.zero, PrimFloat.one in Hin.
  rewrite Hcode in Hin. discriminate.
Qed.
